(** * The Brain service (apps/brain/app/main.py)

    The module creates a FastAPI application, registers one GET route at
    /health and defines its handler, which returns a dict literal.

    - [Python]: the object store the handler runs on (str values, dict
      objects with insertion order, allocation, exceptions);
    - [JSON]: the encoding of a returned value and its rendering as bytes;
    - [Web]: requests, responses, routes and the application object of the
      framework the module instantiates (FastAPI on Starlette's router);
    - [Main]: the module itself, line by line;
    - [Server]: routing, the call of the endpoint, the response, and the
      states the server reaches;
    - [Concurrent]: requests in flight, their phases interleaved. *)

From Stdlib Require Import Ascii String.
From stdpp Require Import base option list strings relations.

#[local] Set Warnings "-register-all".

Local Open Scope string_scope.
Local Open Scope list_scope.

(** ** Python objects *)

Module Python.

(** Object identities: an index into the store. *)
Definition loc := nat.

(** The values the module manipulates: str constants and references to
    objects in the store. *)
Inductive value :=
| VStr (s : string)
| VRef (l : loc).

#[export] Instance value_eq_dec : EqDecision value.
Proof. solve_decision. Defined.

(** A dict keeps its items in insertion order. *)
Abbreviation items := (list (value * value)).

Inductive obj :=
| ODict (d : items).

#[export] Instance obj_eq_dec : EqDecision obj.
Proof. solve_decision. Defined.

(** The store only grows: a new object gets the next identity. *)
Abbreviation heap := (list obj).

Definition alloc (h : heap) (o : obj) : loc * heap :=
  (List.length h, h ++ [o]).

Inductive exn :=
| TypeError (msg : string)
| ValueError (msg : string).

Inductive outcome (A : Type) :=
| Return (a : A)
| Raise (e : exn).
Arguments Return {A} a.
Arguments Raise {A} e.

Definition outcome_map {A B} (f : A → B) (o : outcome A) : outcome B :=
  match o with
  | Return a => Return (f a)
  | Raise e => Raise e
  end.

(** hash(): a str is hashable, a dict is not; a dangling reference has no
    object to hash. *)
Definition hashable (h : heap) (v : value) : bool :=
  match v with
  | VStr _ => true
  | VRef l =>
      match h !! l with
      | Some (ODict _) => false
      | None => false
      end
  end.

(** d[k] = v: an existing key keeps its position and its key object, a new
    key goes last. *)
Fixpoint dict_setitem (d : items) (k v : value) : items :=
  match d with
  | [] => [(k, v)]
  | (k', v') :: d' =>
      if decide (k' = k) then (k', v) :: d'
      else (k', v') :: dict_setitem d' k v
  end.

(** The items of a dict display, inserted left to right. *)
Fixpoint build_map (h : heap) (acc : items) (kvs : list (value * value))
  : outcome items :=
  match kvs with
  | [] => Return acc
  | (k, v) :: rest =>
      if hashable h k then build_map h (dict_setitem acc k v) rest
      else Raise (TypeError "unhashable type")
  end.

Definition keys (d : items) : list value := d.*1.
Definition values (d : items) : list value := d.*2.

(** [refers o l]: object [o] holds a reference to [l]. *)
Definition refers (o : obj) (l : loc) : Prop :=
  match o with
  | ODict d => VRef l ∈ keys d ∨ VRef l ∈ values d
  end.

End Python.

Export Python.

(** ** JSON values and their rendering *)

Module JSON.

Inductive json :=
| JString (s : string)
| JObject (members : list (string * json)).

Definition quote : ascii := "034"%char.
Definition backslash : ascii := "092"%char.

Definition hexdigit (n : nat) : ascii :=
  match n with
  | 0 => "0" | 1 => "1" | 2 => "2" | 3 => "3" | 4 => "4" | 5 => "5"
  | 6 => "6" | 7 => "7" | 8 => "8" | 9 => "9" | 10 => "a" | 11 => "b"
  | 12 => "c" | 13 => "d" | 14 => "e" | _ => "f"
  end%char.

(** json.encoder.ESCAPE_DCT: the quote, the backslash and the control
    characters are escaped, every other character is kept (the response
    class renders with ensure_ascii=False). *)
Definition escape (c : ascii) : string :=
  let n := nat_of_ascii c in
  if (n =? 34)%nat then String backslash (String quote "")
  else if (n =? 92)%nat then String backslash (String backslash "")
  else if (n =? 8)%nat then String backslash "b"
  else if (n =? 12)%nat then String backslash "f"
  else if (n =? 10)%nat then String backslash "n"
  else if (n =? 13)%nat then String backslash "r"
  else if (n =? 9)%nat then String backslash "t"
  else if (n <? 32)%nat then
    String backslash
      (String "u" (String "0" (String "0"
         (String (hexdigit (n / 16)) (String (hexdigit (n mod 16)) "")))))
  else String c "".

Fixpoint escape_all (s : string) : string :=
  match s with
  | EmptyString => ""
  | String c s' => escape c +:+ escape_all s'
  end.

Definition encode_basestring (s : string) : string :=
  String quote (escape_all s +:+ String quote "").

(** json.dumps(content, ensure_ascii=False, indent=None,
    separators=(",", ":")). *)
Fixpoint dumps (j : json) : string :=
  match j with
  | JString s => encode_basestring s
  | JObject ms =>
      "{" +:+
      (fix members (ms : list (string * json)) : string :=
         match ms with
         | [] => ""
         | [(k, v)] => encode_basestring k +:+ ":" +:+ dumps v
         | (k, v) :: rest =>
             encode_basestring k +:+ ":" +:+ dumps v +:+ "," +:+ members rest
         end) ms
      +:+ "}"
  end.

(** jsonable_encoder on the values of the store: a str is kept, a dict is
    encoded item by item in its own order, without the items whose key
    starts with _sa (sqlalchemy_safe is on by default).  The fuel bounds
    the nesting; a chain of references longer than the store is circular. *)
Fixpoint encode (h : heap) (fuel : nat) (v : value) : outcome json :=
  match fuel with
  | 0 => Raise (ValueError "Circular reference detected")
  | S fuel' =>
      match v with
      | VStr s => Return (JString s)
      | VRef l =>
          match h !! l with
          | None => Raise (ValueError "no such object")
          | Some (ODict d) =>
              outcome_map JObject
                ((fix members (d : items) : outcome (list (string * json)) :=
                    match d with
                    | [] => Return []
                    | (VStr k, v) :: rest =>
                        if String.prefix "_sa" k then members rest
                        else
                          match encode h fuel' v with
                          | Raise e => Raise e
                          | Return j => outcome_map (cons (k, j)) (members rest)
                          end
                    | (VRef _, _) :: _ => Raise (TypeError "keys must be str")
                    end) d)
          end
      end
  end.

Definition jsonable_encoder (h : heap) (v : value) : outcome json :=
  encode h (S (List.length h)) v.

End JSON.

Export JSON.

(** ** The framework's data: requests, responses, routes, the application *)

Module Web.

(** An HTTP request as the router sees it: the method as sent, the decoded
    path without the query string, the parsed query, the header fields and
    the request body. *)
Record Request := {
  method : string;
  path : string;
  query_params : list (string * string);
  headers : list (string * string);
  stream : string
}.

(** Documents the framework generates by itself; their text is not
    modelled. *)
Inductive document :=
| OpenAPISchema
| SwaggerUI
| SwaggerUIRedirect
| ReDoc
| ValidationErrors (missing : list string).

Inductive payload :=
| Bytes (b : string)
| Generated (d : document).

(** A response: status code, media type and body.  The header fields are
    not modelled: not the Content-Length, not the Allow of a 405, and not
    the Location of a redirect, which the router builds from the scheme,
    the Host header and the query string of the request. *)
Record Response := {
  status_code : nat;
  media_type : string;
  body : payload
}.

Definition JSONResponse (content : json) (status : nat) : Response :=
  {| status_code := status; media_type := "application/json";
     body := Bytes (dumps content) |}.

Definition PlainTextResponse (content : string) (status : nat) : Response :=
  {| status_code := status; media_type := "text/plain";
     body := Bytes content |}.

(** RedirectResponse(url): status 307 and an empty body; the URL goes into
    the Location header, which is left out. *)
Definition RedirectResponse : Response :=
  {| status_code := 307; media_type := ""; body := Bytes "" |}.

(** The exceptions the router raises. *)
Inductive HTTPException := NotFound | MethodNotAllowed.

Definition code (e : HTTPException) : nat :=
  match e with
  | NotFound => 404
  | MethodNotAllowed => 405
  end.

(** http.HTTPStatus(code).phrase, the detail of the exception. *)
Definition phrase (e : HTTPException) : string :=
  match e with
  | NotFound => "Not Found"
  | MethodNotAllowed => "Method Not Allowed"
  end.

(** The handler installed for HTTPException. *)
Definition http_exception_handler (e : HTTPException) : Response :=
  JSONResponse (JObject [("detail", JString (phrase e))]) (code e).

(** The functions main.py defines. *)
Inductive function := fn_health.

(** The endpoints the application object defines for its own pages. *)
Inductive builtin := openapi | swagger_ui_html | swagger_ui_redirect | redoc_html.

(** starlette.routing.Route and fastapi.routing.APIRoute. *)
Inductive route :=
| Route (p : string) (methods : list string) (endpoint : builtin)
| APIRoute (p : string) (methods : list string) (endpoint : function).

Definition route_path (r : route) : string :=
  match r with Route p _ _ | APIRoute p _ _ => p end.

Definition route_methods (r : route) : list string :=
  match r with Route _ ms _ | APIRoute _ ms _ => ms end.

(** The application object, by the attributes that routing and the schema
    endpoint read or write.  The middleware stack, which the first call of
    the application builds and keeps on the object, is not modelled. *)
Record FastAPI := {
  title : string;
  version : string;
  openapi_url : option string;
  docs_url : option string;
  redoc_url : option string;
  swagger_ui_oauth2_redirect_url : option string;
  routes : list route;
  openapi_schema : option document
}.

Definition set_routes (a : FastAPI) (rs : list route) : FastAPI :=
  {| title := title a; version := version a; openapi_url := openapi_url a;
     docs_url := docs_url a; redoc_url := redoc_url a;
     swagger_ui_oauth2_redirect_url := swagger_ui_oauth2_redirect_url a;
     routes := rs; openapi_schema := openapi_schema a |}.

Definition set_openapi_schema (a : FastAPI) (d : option document) : FastAPI :=
  {| title := title a; version := version a; openapi_url := openapi_url a;
     docs_url := docs_url a; redoc_url := redoc_url a;
     swagger_ui_oauth2_redirect_url := swagger_ui_oauth2_redirect_url a;
     routes := routes a; openapi_schema := d |}.

(** Router.add_route: methods default to GET, and a Route serving GET also
    serves HEAD. *)
Definition add_route (a : FastAPI) (p : string) (e : builtin) : FastAPI :=
  set_routes a (routes a ++ [Route p ["GET"; "HEAD"] e]).

(** FastAPI.setup: the routes the application serves by itself, one for
    each URL that is set. *)
Definition setup (a : FastAPI) : FastAPI :=
  let a :=
    match openapi_url a with
    | Some u => add_route a u openapi
    | None => a
    end in
  let a :=
    match openapi_url a, docs_url a with
    | Some _, Some u =>
        let a := add_route a u swagger_ui_html in
        match swagger_ui_oauth2_redirect_url a with
        | Some u' => add_route a u' swagger_ui_redirect
        | None => a
        end
    | _, _ => a
    end in
  match openapi_url a, redoc_url a with
  | Some _, Some u => add_route a u redoc_html
  | _, _ => a
  end.

(** FastAPI(title=...): every argument but the title keeps its default. *)
Definition FastAPI_init (t : string) : FastAPI :=
  setup {| title := t; version := "0.1.0";
           openapi_url := Some "/openapi.json";
           docs_url := Some "/docs";
           redoc_url := Some "/redoc";
           swagger_ui_oauth2_redirect_url := Some "/docs/oauth2-redirect";
           routes := []; openapi_schema := None |}.

(** The decorator app.get(path): an APIRoute for GET only, appended to the
    routes. *)
Definition get (a : FastAPI) (p : string) (f : function) : FastAPI :=
  set_routes a (routes a ++ [APIRoute p ["GET"] f]).

(** The interpreter state a request runs on: the module's application
    object and the object store. *)
Record Interp := {
  application : FastAPI;
  objects : heap
}.

(** Python code: a state transformer that returns or raises. *)
Definition Py (A : Type) : Type := Interp → outcome A * Interp.

Definition raise {A} (e : exn) : Py A := λ st, (Raise e, st).

(** A dict display: the items are inserted in order and the new dict is
    allocated in the store. *)
Definition dict_display (kvs : list (value * value)) : Py value :=
  λ st, match build_map (objects st) [] kvs with
        | Return d =>
            let '(l, h) := alloc (objects st) (ODict d) in
            (Return (VRef l), {| application := application st; objects := h |})
        | Raise e => (Raise e, st)
        end.

End Web.

Export Web.

(** ** main.py *)

Module Main.

(** def health(): return {...} *)
Definition health : Py value :=
  dict_display [(VStr "status", VStr "ok");
                (VStr "service", VStr "brain");
                (VStr "version", VStr "0.1.0")].

(** app = FastAPI(title=...), then the decorated definition of health. *)
Definition app : FastAPI :=
  get (FastAPI_init "Voice Web Agent Brain") "/health" fn_health.

(** The state once the module is imported. *)
Definition imported : Interp :=
  {| application := app; objects := [] |}.

End Main.

Export Main.

(** ** The framework's behaviour: routing, calling, responding *)

Module Server.

Definition LF : string := String "010"%char "".

(** A route path without parameters compiles to the pattern ^path$, and
    Python's $ also matches just before a final line feed. *)
Definition path_regex_match (rp p : string) : bool :=
  bool_decide (p = rp) || bool_decide (p = rp +:+ LF).

Inductive Match := NONE | PARTIAL | FULL.

#[export] Instance Match_eq_dec : EqDecision Match.
Proof. solve_decision. Defined.

(** Route.matches on a method and a path. *)
Definition matches (r : route) (m p : string) : Match :=
  if path_regex_match (route_path r) p then
    if negb (bool_decide (route_methods r = []))
       && negb (bool_decide (m ∈ route_methods r))
    then PARTIAL else FULL
  else NONE.

(** The first route whose match is [want]. *)
Fixpoint find_match (want : Match) (rs : list route) (m p : string)
  : option route :=
  match rs with
  | [] => None
  | r :: rs' =>
      if decide (matches r m p = want) then Some r
      else find_match want rs' m p
  end.

Fixpoint endswith (c : ascii) (s : string) : bool :=
  match s with
  | EmptyString => false
  | String a EmptyString => Ascii.eqb a c
  | String _ s' => endswith c s'
  end.

Fixpoint rstrip (c : ascii) (s : string) : string :=
  match s with
  | EmptyString => EmptyString
  | String a s' =>
      match rstrip c s' with
      | EmptyString => if Ascii.eqb a c then EmptyString else String a EmptyString
      | t => String a t
      end
  end.

(** redirect_slashes: the path with its trailing slashes removed, or with
    one added. *)
Definition redirect_path (p : string) : string :=
  if endswith "/" p then rstrip "/" p else p +:+ "/".

Definition redirects (rs : list route) (m p : string) : bool :=
  negb (bool_decide (p = "/"))
  && existsb (λ r, negb (bool_decide (matches r m (redirect_path p) = NONE))) rs.

Definition page (d : document) (media : string) : Response :=
  {| status_code := 200; media_type := media; body := Generated d |}.

(** The application's own endpoints.  openapi() builds the schema on its
    first call and keeps it on the application object. *)
Definition call_builtin (e : builtin) (st : Interp) : Response * Interp :=
  match e with
  | openapi =>
      let a := application st in
      let a' :=
        match openapi_schema a with
        | Some _ => a
        | None => set_openapi_schema a (Some OpenAPISchema)
        end in
      (page OpenAPISchema "application/json",
       {| application := a'; objects := objects st |})
  | swagger_ui_html => (page SwaggerUI "text/html", st)
  | swagger_ui_redirect => (page SwaggerUIRedirect "text/html", st)
  | redoc_html => (page ReDoc "text/html", st)
  end.

(** The parameters an endpoint function declares (required query
    parameters of type str). *)
Inductive parameter := Query (name : string).

(** def health(): no parameters. *)
Definition signature (f : function) : list parameter :=
  match f with
  | fn_health => []
  end.

Fixpoint assoc (k : string) (l : list (string * string)) : option string :=
  match l with
  | [] => None
  | (k', v) :: l' => if decide (k' = k) then Some v else assoc k l'
  end.

(** The keyword arguments for the call and the names of the missing
    parameters. *)
Fixpoint solve_dependencies (ps : list parameter) (req : Request)
  : list (string * value) * list string :=
  match ps with
  | [] => ([], [])
  | Query n :: ps' =>
      let '(kwargs, errors) := solve_dependencies ps' req in
      match assoc n (query_params req) with
      | Some v => ((n, VStr v) :: kwargs, errors)
      | None => (kwargs, n :: errors)
      end
  end.

(** Calling a function of main.py with keyword arguments. *)
Definition call (f : function) (kwargs : list (string * value)) : Py value :=
  match f, kwargs with
  | fn_health, [] => health
  | fn_health, _ :: _ =>
      raise (TypeError "health() got an unexpected keyword argument")
  end.

(** What routing decides: an answer at once, or a call of an endpoint
    function. *)
Inductive dispatched :=
| Respond (r : Response) (st : Interp)
| Invoke (f : function) (kwargs : list (string * value)).

(** Route.handle, up to the call of the endpoint function. *)
Definition handle_route (r : route) (st : Interp) (req : Request) : dispatched :=
  if negb (bool_decide (route_methods r = []))
     && negb (bool_decide (method req ∈ route_methods r))
  then Respond (http_exception_handler MethodNotAllowed) st
  else
    match r with
    | Route _ _ e => let '(resp, st') := call_builtin e st in Respond resp st'
    | APIRoute _ _ f =>
        match solve_dependencies (signature f) req with
        | (kwargs, []) => Invoke f kwargs
        | (_, missing) =>
            Respond {| status_code := 422; media_type := "application/json";
                       body := Generated (ValidationErrors missing) |} st
        end
    end.

(** Router.app: the first full match, else the first partial match, else a
    redirect to the other slash form, else not found. *)
Definition dispatch (st : Interp) (req : Request) : dispatched :=
  let rs := routes (application st) in
  match find_match FULL rs (method req) (path req) with
  | Some r => handle_route r st req
  | None =>
      match find_match PARTIAL rs (method req) (path req) with
      | Some r => handle_route r st req
      | None =>
          if redirects rs (method req) (path req)
          then Respond RedirectResponse st
          else Respond (http_exception_handler NotFound) st
      end
  end.

(** The value an endpoint function returned goes through
    jsonable_encoder into a JSONResponse with status 200; an exception
    that is not an HTTPException ends as a plain 500. *)
Definition serialize_response (st : Interp) (o : outcome value) : Response :=
  match o with
  | Raise _ => PlainTextResponse "Internal Server Error" 500
  | Return v =>
      match jsonable_encoder (objects st) v with
      | Return j => JSONResponse j 200
      | Raise _ => PlainTextResponse "Internal Server Error" 500
      end
  end.

(** One request, start to end. *)
Definition handle (st : Interp) (req : Request) : Response * Interp :=
  match dispatch st req with
  | Respond r st' => (r, st')
  | Invoke f kwargs =>
      let '(o, st') := call f kwargs st in
      (serialize_response st' o, st')
  end.

(** Requests served one after the other. *)
Fixpoint serve (st : Interp) (reqs : list Request) : list Response * Interp :=
  match reqs with
  | [] => ([], st)
  | req :: reqs' =>
      let '(r, st') := handle st req in
      let '(rs, st'') := serve st' reqs' in
      (r :: rs, st'')
  end.

(** The states the server can be in: the imported module, then any
    requests. *)
Inductive Reachable : Interp → Prop :=
| reach_imported : Reachable imported
| reach_handle st req : Reachable st → Reachable (handle st req).2.

End Server.

Export Server.

(** ** Requests in flight

    A request goes through routing, the call of its endpoint function and
    the rendering of the response.  With several requests in flight the
    phases of different requests interleave in any order on the one
    interpreter state; nothing waits for anything. *)

Module Concurrent.

Inductive task :=
| Pending (req : Request)
| Running (req : Request) (f : function) (kwargs : list (string * value))
| Returned (req : Request) (o : outcome value)
| Finished (req : Request) (r : Response).

(** The next phase of a task on the shared state; a finished task has
    none. *)
Definition advance (t : task) (st : Interp) : option (task * Interp) :=
  match t with
  | Pending req =>
      Some match dispatch st req with
           | Respond r st' => (Finished req r, st')
           | Invoke f kwargs => (Running req f kwargs, st)
           end
  | Running req f kwargs =>
      let '(o, st') := call f kwargs st in Some (Returned req o, st')
  | Returned req o => Some (Finished req (serialize_response st o), st)
  | Finished _ _ => None
  end.

Record pool := {
  shared : Interp;
  tasks : list task
}.

(** Any unfinished task may take the next step. *)
Inductive step : pool → pool → Prop :=
| step_task P i t t' st' :
    tasks P !! i = Some t →
    advance t (shared P) = Some (t', st') →
    step P {| shared := st'; tasks := <[i := t']> (tasks P) |}.

(** The step of task [i], as a function. *)
Definition step_at (i : nat) (P : pool) : option pool :=
  match tasks P !! i with
  | Some t =>
      match advance t (shared P) with
      | Some (t', st') => Some {| shared := st'; tasks := <[i := t']> (tasks P) |}
      | None => None
      end
  | None => None
  end.

(** A schedule names the task that moves at each step. *)
Fixpoint schedule (order : list nat) (P : pool) : option pool :=
  match order with
  | [] => Some P
  | i :: order' =>
      match step_at i P with
      | Some P' => schedule order' P'
      | None => None
      end
  end.

Definition request_of (t : task) : Request :=
  match t with
  | Pending req | Running req _ _ | Returned req _ | Finished req _ => req
  end.

(** Phases a task has left, at most. *)
Definition rank (t : task) : nat :=
  match t with
  | Pending _ => 3
  | Running _ _ _ => 2
  | Returned _ _ => 1
  | Finished _ _ => 0
  end.

Definition work (ts : list task) : nat := foldr (λ t n, rank t + n) 0 ts.

Definition accept (st : Interp) (reqs : list Request) : pool :=
  {| shared := st; tasks := Pending <$> reqs |}.

End Concurrent.

Export Concurrent.

(** ** What the health endpoint is expected to answer *)

Definition health_items : items :=
  [(VStr "status", VStr "ok");
   (VStr "service", VStr "brain");
   (VStr "version", VStr "0.1.0")].

Definition health_object : json :=
  JObject [("status", JString "ok");
           ("service", JString "brain");
           ("version", JString "0.1.0")].

Definition quoted (s : string) : string :=
  String quote (s +:+ String quote EmptyString).

(** The bytes of the body, written out. *)
Definition health_bytes : string :=
  "{" +:+ quoted "status" +:+ ":" +:+ quoted "ok" +:+ ","
      +:+ quoted "service" +:+ ":" +:+ quoted "brain" +:+ ","
      +:+ quoted "version" +:+ ":" +:+ quoted "0.1.0" +:+ "}".

Definition health_response : Response :=
  {| status_code := 200; media_type := "application/json";
     body := Bytes health_bytes |}.

(** A request for GET /health, whatever else it carries. *)
Definition is_health (req : Request) : Prop :=
  method req = "GET" ∧ path req = "/health".

(** The state after one more dict of the handler was allocated. *)
Definition with_result (st : Interp) : Interp :=
  {| application := application st;
     objects := objects st ++ [ODict health_items] |}.

(** A request that carries nothing but its method and path. *)
Definition bare (m p : string) : Request :=
  {| method := m; path := p; query_params := []; headers := []; stream := "" |}.

(** A state whose application still has the routes of the imported module. *)
Definition routed (st : Interp) : Prop :=
  routes (application st) = routes app.

(** Only dicts of the handler live in the store. *)
Definition only_results (h : heap) : Prop :=
  Forall (λ o, o = ODict health_items) h.

(** A path some registered route answers: its pattern accepts the path or
    the other slash form of the path. *)
Definition known_path (p : string) : bool :=
  existsb (λ r, path_regex_match (route_path r) p
                || path_regex_match (route_path r) (redirect_path p))
          (routes app).



(** What holds of a task for GET /health at each of its phases. *)
Definition task_ok (st : Interp) (t : task) : Prop :=
  match t with
  | Pending _ => True
  | Running req f kwargs => is_health req → kwargs = []
  | Returned req o =>
      is_health req →
      ∃ l, o = Return (VRef l) ∧ objects st !! l = Some (ODict health_items)
  | Finished req r => is_health req → r = health_response
  end.

Definition pool_ok (P : pool) : Prop :=
  routed (shared P) ∧ Forall (task_ok (shared P)) (tasks P).

(** A hundred GET /health requests at once, served round robin. *)
Definition hundred : list Request := replicate 100 (bare "GET" "/health").

Definition round_robin : list nat := seq 0 100 ++ seq 0 100 ++ seq 0 100.

Definition hundred_served : pool :=
  {| shared := {| application := app;
                  objects := replicate 100 (ODict health_items) |};
     tasks := (λ req, Finished req health_response) <$> hundred |}.

(** ** Vocabulary of the further properties *)

(** The requests the route of main.py takes: GET on a path its pattern
    accepts. *)
Definition accepted (req : Request) : bool :=
  bool_decide (method req = "GET") && path_regex_match "/health" (path req).

(** How often health() runs while a list of requests is served. *)
Definition invocations (reqs : list Request) : nat :=
  List.length (List.filter accepted reqs).

(** Two routing decisions agree: the same answer, or the same call. *)
Definition same_decision (d1 d2 : dispatched) : Prop :=
  match d1, d2 with
  | Respond r1 _, Respond r2 _ => r1 = r2
  | Invoke f1 k1, Invoke f2 k2 => f1 = f2 ∧ k1 = k2
  | _, _ => False
  end.

(** The response a request gets when it is the first one served. *)
Definition alone (req : Request) : Response := (handle imported req).1.

(** Whether the dict of a task is in the store. *)
Definition allocated (t : task) : nat :=
  match t with
  | Returned _ _ => 1
  | Finished req _ => if accepted req then 1 else 0
  | _ => 0
  end.

Definition allocs (ts : list task) : nat := foldr (λ t n, allocated t + n) 0 ts.

(** What holds of any task at each of its phases. *)
Definition task_seq (st : Interp) (t : task) : Prop :=
  match t with
  | Pending _ => True
  | Running req f kwargs => kwargs = [] ∧ accepted req = true
  | Returned req o =>
      accepted req = true
      ∧ ∃ l, o = Return (VRef l) ∧ objects st !! l = Some (ODict health_items)
  | Finished req r => r = alone req
  end.

(** The invariant of a pool: the routes stay, every task is in order, and
    the store is the one the pool started on plus the dicts of the tasks
    that called the handler. *)
Definition pool_seq (base : heap) (P : pool) : Prop :=
  routed (shared P)
  ∧ Forall (task_seq (shared P)) (tasks P)
  ∧ objects (shared P) = base ++ replicate (allocs (tasks P)) (ODict health_items).

(** Three requests of different kinds in flight, and what is left of them
    once every phase has run. *)
Definition mixed : list Request :=
  [bare "GET" "/health"; bare "GET" "/docs"; bare "POST" "/health"].

Definition mixed_served : pool :=
  {| shared := {| application := app; objects := [ODict health_items] |};
     tasks := [Finished (bare "GET" "/health") health_response;
               Finished (bare "GET" "/docs") (page SwaggerUI "text/html");
               Finished (bare "POST" "/health")
                 (http_exception_handler MethodNotAllowed)] |}.

(** * Properties *)

(** ** The handler *)

Lemma health_spec (st : Interp) :
  health st = (Return (VRef (List.length (objects st))), with_result st).
Proof. reflexivity. Qed.

Lemma health_bytes_dumps : dumps health_object = health_bytes.
Proof. reflexivity. Qed.

Lemma lookup_with_result (st : Interp) :
  objects (with_result st) !! List.length (objects st) = Some (ODict health_items).
Proof.
  unfold with_result. cbn [objects].
  by rewrite lookup_app_r, Nat.sub_diag by lia.
Qed.

Lemma encode_health (h : heap) (l : loc) :
  h !! l = Some (ODict health_items) →
  jsonable_encoder h (VRef l) = Return health_object.
Proof.
  intros Hl. unfold jsonable_encoder.
  destruct h as [|o h]; [by rewrite lookup_nil in Hl|].
  cbn [List.length encode]. by rewrite Hl.
Qed.

Lemma serialize_health (st : Interp) :
  serialize_response (with_result st) (Return (VRef (List.length (objects st))))
  = health_response.
Proof.
  unfold serialize_response.
  by rewrite (encode_health _ _ (lookup_with_result st)).
Qed.

(** ** Routing *)

Lemma find_match_Some want rs m p r :
  find_match want rs m p = Some r → r ∈ rs ∧ matches r m p = want.
Proof.
  induction rs as [|r' rs IH]; cbn; [done|].
  destruct (decide (matches r' m p = want)) as [Hw|_].
  - intros [= <-]. split; [left | done].
  - intros [Hin Hm]%IH. split; [by right | done].
Qed.


Lemma matches_path r m p :
  matches r m p ≠ NONE → path_regex_match (route_path r) p = true.
Proof. unfold matches. by destruct (path_regex_match _ _). Qed.

Lemma path_regex_match_spec rp p :
  path_regex_match rp p = true ↔ p = rp ∨ p = rp +:+ LF.
Proof.
  unfold path_regex_match.
  rewrite orb_true_iff, !bool_decide_eq_true. done.
Qed.

Lemma dispatch_health st req :
  routed st → is_health req → dispatch st req = Invoke fn_health [].
Proof.
  intros Hr [Hm Hp]. unfold dispatch. rewrite Hr.
  destruct req as [m p q hs b]; cbn in Hm, Hp; subst m p. reflexivity.
Qed.

Lemma handle_health st req :
  routed st → is_health req → handle st req = (health_response, with_result st).
Proof.
  intros Hr Hh. unfold handle. rewrite (dispatch_health _ _ Hr Hh).
  cbn [call]. rewrite health_spec. by rewrite serialize_health.
Qed.

(** What routing can decide on a route, whatever the route. *)
Lemma handle_route_cases r st req :
  match handle_route r st req with
  | Respond resp st' =>
      objects st' = objects st
      ∧ routes (application st') = routes (application st)
      ∧ body resp ≠ Bytes health_bytes
      ∧ (status_code resp = 405 ∨ ∃ p ms e, r = Route p ms e)
  | Invoke f kwargs =>
      f = fn_health ∧ kwargs = []
      ∧ ∃ p ms, r = APIRoute p ms fn_health ∧ (ms = [] ∨ method req ∈ ms)
  end.
Proof.
  unfold handle_route.
  destruct (negb (bool_decide (route_methods r = []))
            && negb (bool_decide (method req ∈ route_methods r))) eqn:Hm.
  - repeat split; [discriminate | by left].
  - destruct r as [p ms e | p ms []].
    + destruct e; cbn; repeat split; try discriminate; try (right; eauto).
      by destruct (openapi_schema (application st)).
    + cbn. repeat split. exists p, ms. split; [done|].
      cbn in Hm. apply andb_false_iff in Hm as [Hm|Hm];
        apply negb_false_iff, bool_decide_eq_true in Hm; auto.
Qed.

(** Routing either answers at once, without touching the store or the
    routes and never with the health body, or it calls [health] without
    arguments, on a route for health that matches the path and the method. *)
Lemma dispatch_cases st req :
  match dispatch st req with
  | Respond resp st' =>
      objects st' = objects st
      ∧ routes (application st') = routes (application st)
      ∧ body resp ≠ Bytes health_bytes
  | Invoke f kwargs =>
      f = fn_health ∧ kwargs = []
      ∧ ∃ p ms, APIRoute p ms fn_health ∈ routes (application st)
                ∧ path_regex_match p (path req) = true
                ∧ (ms = [] ∨ method req ∈ ms)
  end.
Proof.
  unfold dispatch.
  assert (Hroute : ∀ r, r ∈ routes (application st) →
            matches r (method req) (path req) ≠ NONE →
            match handle_route r st req with
            | Respond resp st' =>
                objects st' = objects st
                ∧ routes (application st') = routes (application st)
                ∧ body resp ≠ Bytes health_bytes
            | Invoke f kwargs =>
                f = fn_health ∧ kwargs = []
                ∧ ∃ p ms, APIRoute p ms fn_health ∈ routes (application st)
                          ∧ path_regex_match p (path req) = true
                          ∧ (ms = [] ∨ method req ∈ ms)
            end).
  { intros r Hin Hne. pose proof (handle_route_cases r st req) as Hc.
    destruct (handle_route r st req) as [resp st'|f kwargs].
    - tauto.
    - destruct Hc as (-> & -> & p & ms & -> & Hms). repeat split.
      exists p, ms. repeat split; [done | by apply matches_path in Hne | done]. }
  destruct (find_match FULL _ _ _) as [r|] eqn:Hfull.
  { apply find_match_Some in Hfull as [Hin Hm]. apply Hroute; [done|].
    by rewrite Hm. }
  destruct (find_match PARTIAL _ _ _) as [r|] eqn:Hpart.
  { apply find_match_Some in Hpart as [Hin Hm]. apply Hroute; [done|].
    by rewrite Hm. }
  destruct (redirects _ _ _); repeat split; discriminate.
Qed.

(** One request either leaves the store alone or appends one dict of the
    handler, which is then the body of the response. *)
Lemma handle_cases st req :
  (objects (handle st req).2 = objects st
   ∧ routes (application (handle st req).2) = routes (application st)
   ∧ body (handle st req).1 ≠ Bytes health_bytes
   ∧ ∃ resp st', dispatch st req = Respond resp st')
  ∨ (handle st req = (health_response, with_result st)
     ∧ dispatch st req = Invoke fn_health []).
Proof.
  unfold handle. pose proof (dispatch_cases st req) as Hc.
  destruct (dispatch st req) as [resp st'|f kwargs].
  - left. cbn. destruct Hc as (? & ? & ?). eauto 10.
  - right. destruct Hc as (-> & -> & _). cbn [call].
    rewrite health_spec. by rewrite serialize_health.
Qed.

Lemma handle_routes st req :
  routes (application (handle st req).2) = routes (application st).
Proof.
  destruct (handle_cases st req) as [(_ & H & _)|[-> _]]; done.
Qed.

Lemma handle_objects st req :
  objects (handle st req).2 = objects st
  ∨ objects (handle st req).2 = objects st ++ [ODict health_items].
Proof.
  destruct (handle_cases st req) as [(H & _)|[-> _]]; [by left | by right].
Qed.

Lemma handle_prefix st req : objects st `prefix_of` objects (handle st req).2.
Proof.
  destruct (handle_objects st req) as [->| ->]; [done | by apply prefix_app_r].
Qed.

Lemma serve_prefix reqs : ∀ st, objects st `prefix_of` objects (serve st reqs).2.
Proof.
  induction reqs as [|req reqs IH]; intros st; cbn; [done|].
  pose proof (handle_prefix st req) as H1.
  destruct (handle st req) as [r st']. specialize (IH st').
  destruct (serve st' reqs) as [rs st'']. cbn in *. by etrans.
Qed.

Lemma serve_routes reqs :
  ∀ st, routes (application (serve st reqs).2) = routes (application st).
Proof.
  induction reqs as [|req reqs IH]; intros st; cbn; [done|].
  pose proof (handle_routes st req) as H1.
  destruct (handle st req) as [r st']. specialize (IH st').
  destruct (serve st' reqs) as [rs st'']. cbn in *. congruence.
Qed.

(** ** The states the server reaches *)

Lemma reachable_routed st : Reachable st → routed st.
Proof.
  induction 1 as [|st req _ IH]; [done|].
  unfold routed in *. by rewrite handle_routes.
Qed.

Lemma reachable_only_results st : Reachable st → only_results (objects st).
Proof.
  induction 1 as [|st req _ IH]; [constructor|].
  unfold only_results in *.
  destruct (handle_objects st req) as [->| ->]; [done|].
  apply Forall_app. split; [done | by repeat constructor].
Qed.

Lemma reachable_serve reqs : ∀ st, Reachable st → Reachable (serve st reqs).2.
Proof.
  induction reqs as [|req reqs IH]; intros st Hst; cbn; [done|].
  pose proof (reach_handle st req Hst) as H1.
  destruct (handle st req) as [r st']. specialize (IH st' H1).
  by destruct (serve st' reqs) as [rs st''].
Qed.

Lemma routes_of_app :
  routes app =
  [Route "/openapi.json" ["GET"; "HEAD"] openapi;
   Route "/docs" ["GET"; "HEAD"] swagger_ui_html;
   Route "/docs/oauth2-redirect" ["GET"; "HEAD"] swagger_ui_redirect;
   Route "/redoc" ["GET"; "HEAD"] redoc_html;
   APIRoute "/health" ["GET"] fn_health].
Proof. reflexivity. Qed.

Lemma api_route_of_app p ms f :
  APIRoute p ms f ∈ routes app → p = "/health" ∧ ms = ["GET"].
Proof.
  rewrite routes_of_app. rewrite !elem_of_cons, elem_of_nil.
  intros [H|[H|[H|[H|[H|[]]]]]]; by inversion H.
Qed.


(** Only GET on a path the /health pattern accepts reaches the handler. *)
Lemma invoke_only_health st req f kwargs :
  routed st → dispatch st req = Invoke f kwargs →
  method req = "GET" ∧ (path req = "/health" ∨ path req = "/health" +:+ LF).
Proof.
  intros Hr Hd. pose proof (dispatch_cases st req) as Hc. rewrite Hd in Hc.
  destruct Hc as (_ & _ & p & ms & Hin & Hp & Hms).
  rewrite Hr in Hin. apply api_route_of_app in Hin as [-> ->].
  apply path_regex_match_spec in Hp. split; [|done].
  destruct Hms as [|Hm]; [done|].
  by apply list_elem_of_singleton in Hm.
Qed.

(** ** The claims *)

(** C1: every GET /health request is answered with status 200, and the body
    is exactly the object with the three members status = ok, service =
    brain and version = 0.1.0, rendered as the bytes [health_bytes]. *)
Theorem C1_get_health_ok (st : Interp) (req : Request) :
  Reachable st → method req = "GET" → path req = "/health" →
  status_code (handle st req).1 = 200
  ∧ body (handle st req).1
    = Bytes (dumps (JObject [("status", JString "ok");
                             ("service", JString "brain");
                             ("version", JString "0.1.0")]))
  ∧ body (handle st req).1 = Bytes health_bytes.
Proof.
  intros Hst Hm Hp.
  rewrite (handle_health st req (reachable_routed _ Hst) (conj Hm Hp)).
  done.
Qed.

Lemma C1_get_health_ok_witness :
  Reachable imported
  ∧ status_code (handle imported (bare "GET" "/health")).1 = 200
  ∧ body (handle imported (bare "GET" "/health")).1 = Bytes health_bytes.
Proof.
  split; [apply reach_imported|].
  pose proof (C1_get_health_ok imported (bare "GET" "/health")
                reach_imported eq_refl eq_refl) as (H1 & _ & H3).
  exact (conj H1 H3).
Defined.

(** C2: repeated identical GET /health requests get byte-identical bodies:
    the body of the first answer equals the body of the answer to the same
    request sent again, directly or after any other requests. *)
Theorem C2_health_idempotent (st : Interp) (req : Request)
    (between : list Request) :
  Reachable st → is_health req →
  body (handle st req).1
  = body (handle (serve (handle st req).2 between).2 req).1
  ∧ ∃ b, body (handle st req).1 = Bytes b.
Proof.
  intros Hst Hh.
  assert (Reachable (serve (handle st req).2 between).2) as Hst'.
  { apply reachable_serve. by constructor. }
  rewrite (handle_health _ req (reachable_routed _ Hst') Hh).
  rewrite (handle_health st req (reachable_routed _ Hst) Hh).
  split; [done | by eexists].
Qed.

Lemma C2_health_idempotent_witness :
  Reachable imported ∧ is_health (bare "GET" "/health")
  ∧ body (handle imported (bare "GET" "/health")).1
    = body (handle (serve (handle imported (bare "GET" "/health")).2
                      [bare "GET" "/openapi.json"]).2
              (bare "GET" "/health")).1.
Proof.
  split; [apply reach_imported|]. split; [done|].
  exact (proj1 (C2_health_idempotent imported (bare "GET" "/health")
                  [bare "GET" "/openapi.json"] reach_imported (conj eq_refl eq_refl))).
Defined.

(** C3: health() has no side effects.  Whatever the state, the call leaves
    the application object as it was and every object of the store as it
    was; the one new thing is the returned dict itself, and its content is
    the same from every state. *)
Theorem C3_health_no_side_effects (st : Interp) :
  application (health st).2 = application st
  ∧ (∀ l o, objects st !! l = Some o → objects (health st).2 !! l = Some o)
  ∧ objects (health st).2 = objects st ++ [ODict health_items]
  ∧ ∀ st', ∃ l l',
      (health st).1 = Return (VRef l) ∧ (health st').1 = Return (VRef l')
      ∧ objects (health st).2 !! l = objects (health st').2 !! l'.
Proof.
  rewrite health_spec. cbn [fst snd].
  split; [done|]. split.
  { intros l o Hl. unfold with_result. cbn [objects]. by apply lookup_app_l_Some. }
  split; [done|].
  intros st'. rewrite health_spec. cbn [fst snd].
  eexists _, _. repeat split. by rewrite !lookup_with_result.
Qed.

(** C4: health() always returns normally: from every state the call returns
    a reference to its dict, and it raises no exception. *)
Theorem C4_health_returns (st : Interp) :
  (∃ l, (health st).1 = Return (VRef l))
  ∧ ∀ e, (health st).1 ≠ Raise e.
Proof. rewrite health_spec. split; [by eexists | done]. Qed.

















(** The requests the amended C5 sets apart, evaluated: a trailing slash is
    redirected, a line feed after /health is accepted by the route's
    pattern, and an unknown path is not found. *)
Example get_health_slash_redirected :
  status_code (handle imported (bare "GET" "/health/")).1 = 307.
Proof. reflexivity. Qed.

Example get_health_line_feed_accepted :
  (handle imported (bare "GET" ("/health" +:+ LF))).1 = health_response.
Proof. reflexivity. Qed.

Example get_unknown_not_found :
  known_path "/nope" = false
  ∧ status_code (handle imported (bare "GET" "/nope")).1 = 404.
Proof. split; reflexivity. Qed.

(** C7: the dict is constructed anew by every invocation.  The identity
    health() returns was not in use before; no object of the store holds a
    reference to the new dict; later requests leave it as it was built; and
    any later invocation returns a different identity.  A GET /health
    request is one such invocation. *)
Theorem C7_fresh_dict (st : Interp) (later : list Request) :
  Reachable st →
  (health st).1 = Return (VRef (List.length (objects st)))
  ∧ objects st !! List.length (objects st) = None
  ∧ objects (health st).2 !! List.length (objects st) = Some (ODict health_items)
  ∧ (∀ l o, objects (health st).2 !! l = Some o →
            ¬ refers o (List.length (objects st)))
  ∧ objects (serve (health st).2 later).2 !! List.length (objects st)
    = Some (ODict health_items)
  ∧ (∃ l', (health (serve (health st).2 later).2).1 = Return (VRef l')
           ∧ l' ≠ List.length (objects st))
  ∧ ∀ req, is_health req → (handle st req).2 = (health st).2.
Proof.
  intros Hst. rewrite health_spec. cbn [fst snd].
  pose proof (lookup_with_result st) as Hnew.
  pose proof (serve_prefix later (with_result st)) as Hpre.
  split; [done|]. split; [by apply lookup_ge_None_2|]. split; [done|].
  split; [|split; [|split]].
  - intros l o Hl.
    assert (o = ODict health_items) as ->.
    { assert (only_results (objects (with_result st))) as Hall.
      { apply Forall_app. split; [by apply reachable_only_results|].
        by repeat constructor. }
      eapply Forall_forall in Hall; [exact Hall|].
      by eapply list_elem_of_lookup_2. }
    cbn. unfold keys, values. cbn. rewrite !elem_of_cons, !elem_of_nil.
    intros [[|[|[|[]]]]|[|[|[|[]]]]]; discriminate.
  - by eapply prefix_lookup_Some.
  - rewrite health_spec. cbn [fst]. eexists; split; [done|].
    apply prefix_length in Hpre.
    assert (List.length (objects (with_result st)) = S (List.length (objects st)))
      as Hlen.
    { unfold with_result. cbn [objects]. rewrite length_app. cbn. lia. }
    lia.
  - intros req Hreq. by rewrite (handle_health st req (reachable_routed _ Hst) Hreq).
Qed.

Lemma C7_fresh_dict_witness :
  Reachable imported
  ∧ (health imported).1 = Return (VRef 0)
  ∧ ∃ l', (health (serve (health imported).2 [bare "GET" "/health"]).2).1
          = Return (VRef l')
          ∧ l' ≠ 0.
Proof.
  destruct (C7_fresh_dict imported [bare "GET" "/health"] reach_imported)
    as (H1 & _ & _ & _ & _ & H2 & _).
  exact (conj reach_imported (conj H1 H2)).
Defined.

(** C8: the endpoint accepts no input.  health declares no parameter, so the
    framework solves no dependency, reports no validation error and calls
    it without arguments; a GET /health request is answered the same with
    or without query parameters, header fields or a body. *)
Theorem C8_health_no_input (st : Interp) (q hs : list (string * string))
    (b : string) :
  Reachable st →
  signature fn_health = []
  ∧ dispatch st {| method := "GET"; path := "/health"; query_params := q;
                   headers := hs; stream := b |}
    = Invoke fn_health []
  ∧ handle st {| method := "GET"; path := "/health"; query_params := q;
                 headers := hs; stream := b |}
    = handle st (bare "GET" "/health")
  ∧ (handle st (bare "GET" "/health")).1 = health_response.
Proof.
  intros Hst. pose proof (reachable_routed _ Hst) as Hr.
  split; [done|]. split; [by apply dispatch_health|].
  rewrite !handle_health by done. done.
Qed.

Lemma C8_health_no_input_witness :
  Reachable imported
  ∧ handle imported {| method := "GET"; path := "/health";
                       query_params := [("verbose", "1")];
                       headers := [("accept", "text/html")];
                       stream := "ignored" |}
    = handle imported (bare "GET" "/health").
Proof.
  destruct (C8_health_no_input imported [("verbose", "1")]
              [("accept", "text/html")] "ignored" reach_imported)
    as (_ & _ & H & _).
  exact (conj reach_imported H).
Defined.

(** C9: the answer to GET /health depends on nothing.  Two such requests,
    whatever they carry and whatever state each is served in, get equal
    responses, and the two calls of health() return dicts with equal
    content. *)
Theorem C9_noninterference (st1 st2 : Interp) (req1 req2 : Request) :
  Reachable st1 → Reachable st2 → is_health req1 → is_health req2 →
  (handle st1 req1).1 = (handle st2 req2).1
  ∧ ∃ l1 l2,
      (health st1).1 = Return (VRef l1) ∧ (health st2).1 = Return (VRef l2)
      ∧ objects (health st1).2 !! l1 = objects (health st2).2 !! l2.
Proof.
  intros H1 H2 Hq1 Hq2.
  rewrite (handle_health st1 req1), (handle_health st2 req2)
    by auto using reachable_routed.
  split; [done|]. rewrite !health_spec. cbn [fst snd].
  eexists _, _. repeat split. by rewrite !lookup_with_result.
Qed.

Lemma C9_noninterference_witness :
  Reachable imported
  ∧ Reachable (handle imported (bare "GET" "/openapi.json")).2
  ∧ (handle imported (bare "GET" "/health")).1
    = (handle (handle imported (bare "GET" "/openapi.json")).2
         {| method := "GET"; path := "/health";
            query_params := [("token", "secret")];
            headers := [("cookie", "session")]; stream := "body" |}).1.
Proof.
  assert (H2 : Reachable (handle imported (bare "GET" "/openapi.json")).2)
    by (apply reach_handle, reach_imported).
  destruct (C9_noninterference imported _ (bare "GET" "/health")
              {| method := "GET"; path := "/health";
                 query_params := [("token", "secret")];
                 headers := [("cookie", "session")]; stream := "body" |}
              reach_imported H2 (conj eq_refl eq_refl) (conj eq_refl eq_refl))
    as [H _].
  exact (conj reach_imported (conj H2 H)).
Defined.

(** C10: the dict health() returns has exactly the keys status, service and
    version, in this order, and the members of the encoded object and of
    the rendered body keep the order. *)
Theorem C10_key_order (st : Interp) :
  ∃ l d ms,
    (health st).1 = Return (VRef l)
    ∧ objects (health st).2 !! l = Some (ODict d)
    ∧ keys d = [VStr "status"; VStr "service"; VStr "version"]
    ∧ jsonable_encoder (objects (health st).2) (VRef l) = Return (JObject ms)
    ∧ ms.*1 = ["status"; "service"; "version"]
    ∧ dumps (JObject ms) = health_bytes.
Proof.
  rewrite health_spec. cbn [fst snd]. eexists _, _, _.
  split; [done|]. split; [apply lookup_with_result|]. split; [done|].
  split; [apply encode_health, lookup_with_result|]. done.
Qed.

(** ** Interleavings *)

Lemma step_at_step i P P' : step_at i P = Some P' → step P P'.
Proof.
  unfold step_at. destruct (tasks P !! i) as [t|] eqn:Ht; [|done].
  destruct (advance t (shared P)) as [[t' st']|] eqn:Ha; [|done].
  intros [= <-]. by econstructor.
Qed.

Lemma step_step_at P P' : step P P' → ∃ i, step_at i P = Some P'.
Proof.
  intros [P0 i t t' st' Ht Ha]. exists i. unfold step_at. by rewrite Ht, Ha.
Qed.

Lemma schedule_nsteps order :
  ∀ P P', schedule order P = Some P' → nsteps step (List.length order) P P'.
Proof.
  induction order as [|i order IH]; cbn; intros P P'.
  - intros [= <-]. constructor.
  - destruct (step_at i P) as [P1|] eqn:Hs; [|done].
    intros H. eapply nsteps_l; [by eapply step_at_step | by apply IH].
Qed.

Lemma task_ok_mono st st' t :
  objects st `prefix_of` objects st' → task_ok st t → task_ok st' t.
Proof.
  intros Hpre. destruct t as [req|req f kw|req o|req r]; cbn; try done.
  intros H Hh. destruct (H Hh) as (l & -> & Hl).
  exists l. split; [done | by eapply prefix_lookup_Some].
Qed.

(** One phase of one task: the routes stay, the store only grows, the task
    stays in order, keeps its request and has fewer phases left. *)
Lemma advance_ok t st t' st' :
  routed st → task_ok st t → advance t st = Some (t', st') →
  routed st' ∧ objects st `prefix_of` objects st' ∧ task_ok st' t'
  ∧ request_of t' = request_of t ∧ rank t' < rank t.
Proof.
  intros Hr Hok. destruct t as [req|req f kw|req o|req r]; cbn; [| | |done].
  - pose proof (dispatch_cases st req) as Hc.
    destruct (dispatch st req) as [r st1|f kw] eqn:Hd; intros [= <- <-].
    + destruct Hc as (Ho & Hrt & _). unfold routed. rewrite Hrt, Ho.
      repeat split; [done | done | | cbn; lia].
      cbn. intros Hh. rewrite (dispatch_health _ _ Hr Hh) in Hd. done.
    + destruct Hc as (_ & -> & _). repeat split; [done | done | cbn; lia].
  - destruct f. destruct kw as [|kv kw].
    + cbn [call]. rewrite health_spec. intros [= <- <-].
      repeat split; [done | by apply prefix_app_r | | cbn; lia].
      cbn. intros _. eexists. split; [done | apply lookup_with_result].
    + cbn. intros [= <- <-]. repeat split; [done | done | | cbn; lia].
      cbn. intros Hh. by specialize (Hok Hh).
  - intros [= <- <-]. repeat split; [done | done | | cbn; lia].
    cbn. intros Hh. destruct (Hok Hh) as (l & -> & Hl).
    unfold serialize_response. by rewrite (encode_health _ _ Hl).
Qed.

Lemma work_insert ts : ∀ i t t',
  ts !! i = Some t → work (<[i := t']> ts) + rank t = work ts + rank t'.
Proof.
  induction ts as [|t0 ts IH]; intros [|i] t t'; cbn; try done.
  - intros [= ->]. lia.
  - intros Hi. specialize (IH i t t' Hi).
    change (rank t0 + work (<[i := t']> ts) + rank t = rank t0 + work ts + rank t').
    lia.
Qed.

Lemma step_ok P P' :
  pool_ok P → step P P' →
  pool_ok P' ∧ work (tasks P') < work (tasks P)
  ∧ request_of <$> tasks P' = request_of <$> tasks P.
Proof.
  intros Hok Hstep. destruct Hstep as [Q i t t' st' Ht Ha].
  destruct Hok as [Hr Hts]. cbn [shared tasks].
  assert (task_ok (shared Q) t) as Hok.
  { eapply Forall_forall in Hts; [exact Hts | by eapply list_elem_of_lookup_2]. }
  destruct (advance_ok _ _ _ _ Hr Hok Ha) as (Hr' & Hpre & Hok' & Hreq & Hrank).
  split; [split; [done|]|split].
  - apply Forall_insert; [|done].
    eapply Forall_impl; [exact Hts|]. intros t0. by apply task_ok_mono.
  - pose proof (work_insert (tasks Q) i t t' Ht). lia.
  - rewrite list_fmap_insert, Hreq. apply list_insert_id.
    by rewrite list_lookup_fmap, Ht.
Qed.

Lemma nsteps_ok k P P' :
  nsteps step k P P' → pool_ok P →
  pool_ok P' ∧ (k + work (tasks P') ≤ work (tasks P))%nat
  ∧ request_of <$> tasks P' = request_of <$> tasks P.
Proof.
  induction 1 as [P|k P P1 P' Hstep _ IH]; intros Hok.
  { split; [done|]. split; [cbn; lia | done]. }
  destruct (step_ok _ _ Hok Hstep) as (Hok1 & Hw1 & Hq1).
  destruct (IH Hok1) as (Hok' & Hw & Hq).
  split; [done|]. split; [lia | congruence].
Qed.

Lemma accept_ok st reqs :
  Reachable st →
  pool_ok (accept st reqs)
  ∧ work (tasks (accept st reqs)) = 3 * List.length reqs
  ∧ request_of <$> tasks (accept st reqs) = reqs.
Proof.
  intros Hst. split; [split; [by apply reachable_routed|]|split]; cbn.
  - apply Forall_fmap, Forall_true. done.
  - induction reqs as [|req reqs IH]; cbn; [done|]. unfold work in IH. lia.
  - induction reqs as [|req reqs IH]; cbn; [done | by rewrite IH].
Qed.

Lemma step_at_enabled i t P :
  tasks P !! i = Some t → rank t ≠ 0 → is_Some (step_at i P).
Proof.
  intros Ht Hrank. unfold step_at. rewrite Ht.
  destruct t as [req|req f kw|req o|req r]; cbn [advance rank] in *; [| | |done].
  - destruct (dispatch (shared P) req); by eexists.
  - destruct (call f kw (shared P)). by eexists.
  - by eexists.
Qed.

(** C6: requests in flight do not interfere.  Take any requests accepted
    together, in any reachable state, and let their phases interleave in
    any order for any number of steps.  Then the steps taken and the phases
    left never exceed three per request; every unfinished task can take its
    next step at once, whatever the other tasks did (nothing waits, nothing
    locks); every GET /health request that has finished has the fixed
    response; and when no step is left every GET /health request has
    finished with it. *)
Theorem C6_concurrent_health (st : Interp) (reqs : list Request) (k : nat)
    (P : pool) :
  Reachable st → nsteps step k (accept st reqs) P →
  (k + work (tasks P) ≤ 3 * List.length reqs)%nat
  ∧ (∀ i t, tasks P !! i = Some t → rank t ≠ 0 → is_Some (step_at i P))
  ∧ (∀ i req, reqs !! i = Some req → is_health req →
       ∃ t, tasks P !! i = Some t ∧ request_of t = req
            ∧ ∀ r, t = Finished req r → r = health_response)
  ∧ ((∀ i, step_at i P = None) →
     ∀ i req, reqs !! i = Some req → is_health req →
       tasks P !! i = Some (Finished req health_response)).
Proof.
  intros Hst Hsteps.
  destruct (accept_ok st reqs Hst) as (Hok0 & Hw0 & Hq0).
  destruct (nsteps_ok _ _ _ Hsteps Hok0) as ([Hr Hts] & Hw & Hq).
  rewrite Hw0 in Hw. rewrite Hq0 in Hq.
  assert (Hfin : ∀ i req, reqs !! i = Some req → is_health req →
            ∃ t, tasks P !! i = Some t ∧ request_of t = req
                 ∧ ∀ r, t = Finished req r → r = health_response).
  { intros i req Hi Hh. rewrite <- Hq, list_lookup_fmap in Hi.
    destruct (tasks P !! i) as [t|] eqn:Ht; [|done].
    cbn in Hi. injection Hi as Hreq. exists t. repeat split; [done|].
    intros r ->. eapply Forall_forall in Hts; [|by eapply list_elem_of_lookup_2].
    by apply Hts. }
  split; [done|]. split; [intros i t; apply step_at_enabled|]. split; [done|].
  intros Hstuck i req Hi Hh. destruct (Hfin i req Hi Hh) as (t & Ht & Hreq & Hresp).
  rewrite Ht. f_equal.
  destruct (decide (rank t = 0)) as [Hz|Hnz].
  - destruct t as [?|? ? ?|? ?|req' r]; try done.
    cbn in Hreq. subst req'. by rewrite (Hresp r eq_refl).
  - destruct (step_at_enabled i t P Ht Hnz) as [P' HP']. by rewrite Hstuck in HP'.
Qed.

Lemma C6_concurrent_health_witness :
  Reachable imported
  ∧ nsteps step 300 (accept imported hundred) hundred_served
  ∧ (300 + work (tasks hundred_served) ≤ 3 * List.length hundred)%nat
  ∧ ∀ i req, hundred !! i = Some req → is_health req →
      ∃ t, tasks hundred_served !! i = Some t ∧ request_of t = req
           ∧ ∀ r, t = Finished req r → r = health_response.
Proof.
  assert (Hrun : nsteps step 300 (accept imported hundred) hundred_served).
  { apply (schedule_nsteps round_robin). vm_compute. reflexivity. }
  destruct (C6_concurrent_health imported hundred 300 hundred_served
              reach_imported Hrun) as (H1 & _ & H3 & _).
  exact (conj reach_imported (conj Hrun (conj H1 H3))).
Defined.

(** * Further properties of the module *)

(** ** Which requests reach the handler *)

Lemma accepted_spec req :
  accepted req = true
  ↔ method req = "GET" ∧ (path req = "/health" ∨ path req = "/health" +:+ LF).
Proof.
  unfold accepted.
  by rewrite andb_true_iff, bool_decide_eq_true, path_regex_match_spec.
Qed.

Lemma dispatch_accepted st req :
  routed st → accepted req = true → dispatch st req = Invoke fn_health [].
Proof.
  intros Hr [Hm Hp]%accepted_spec. unfold dispatch. rewrite Hr.
  destruct req as [m p q hs b]; cbn in Hm, Hp; subst m.
  by destruct Hp as [-> | ->].
Qed.

Lemma handle_accepted st req :
  routed st → accepted req = true →
  handle st req = (health_response, with_result st).
Proof.
  intros Hr Ha. unfold handle. rewrite (dispatch_accepted _ _ Hr Ha).
  cbn [call]. rewrite health_spec. by rewrite serialize_health.
Qed.

Lemma handle_not_accepted st req :
  routed st → accepted req = false →
  objects (handle st req).2 = objects st
  ∧ body (handle st req).1 ≠ Bytes health_bytes.
Proof.
  intros Hr Ha.
  destruct (handle_cases st req) as [(Ho & _ & Hb & _)|[_ Hd]]; [done|].
  apply (invoke_only_health _ _ _ _ Hr) in Hd.
  apply accepted_spec in Hd. congruence.
Qed.



Lemma serve_store (st : Interp) (reqs : list Request) :
  Reachable st →
  List.length (serve st reqs).1 = List.length reqs
  ∧ objects (serve st reqs).2
    = objects st ++ replicate (invocations reqs) (ODict health_items).
Proof.
  intros Hst. revert st Hst.
  induction reqs as [|req reqs IH]; intros st Hst.
  { cbn. by rewrite app_nil_r. }
  pose proof (reachable_routed _ Hst) as Hr.
  pose proof (reach_handle st req Hst) as Hst'.
  unfold invocations. cbn [serve List.filter].
  destruct (accepted req) eqn:Ha.
  - rewrite (handle_accepted _ _ Hr Ha) in *. cbn [snd] in Hst'.
    destruct (IH _ Hst') as [Hlen Hobj].
    destruct (serve (with_result st) reqs) as [rs st''].
    cbn [fst snd List.length] in *. split; [by rewrite Hlen|].
    rewrite Hobj. unfold with_result. cbn [objects replicate].
    by rewrite <- app_assoc.
  - destruct (handle_not_accepted _ _ Hr Ha) as [Ho _].
    destruct (handle st req) as [r st']. cbn [snd] in *.
    destruct (IH _ Hst') as [Hlen Hobj].
    destruct (serve st' reqs) as [rs st''].
    cbn [fst snd List.length] in *. split; [by rewrite Hlen|].
    by rewrite Hobj, Ho.
Qed.



(** ** The service keeps no state that shows *)

Lemma handle_route_stateless r st1 st2 req1 req2 :
  method req1 = method req2 →
  same_decision (handle_route r st1 req1) (handle_route r st2 req2).
Proof.
  intros Hm. unfold handle_route. rewrite Hm.
  destruct (negb (bool_decide (route_methods r = []))
            && negb (bool_decide (method req2 ∈ route_methods r))); [done|].
  destruct r as [p ms e | p ms []]; [by destruct e | done].
Qed.

Lemma dispatch_stateless st1 st2 req1 req2 :
  routes (application st1) = routes (application st2) →
  method req1 = method req2 → path req1 = path req2 →
  same_decision (dispatch st1 req1) (dispatch st2 req2).
Proof.
  intros Hr Hm Hp. unfold dispatch. rewrite Hr, Hm, Hp.
  destruct (find_match FULL _ _ _) as [r|]; [by apply handle_route_stateless|].
  destruct (find_match PARTIAL _ _ _) as [r|]; [by apply handle_route_stateless|].
  by destruct (redirects _ _ _).
Qed.

(** The response to a call of an endpoint function is the same from every
    state. *)
Lemma call_stateless f kwargs st1 st2 :
  serialize_response (call f kwargs st1).2 (call f kwargs st1).1
  = serialize_response (call f kwargs st2).2 (call f kwargs st2).1.
Proof.
  destruct f, kwargs as [|kv kwargs]; [|done].
  cbn [call]. rewrite !health_spec. cbn [fst snd]. by rewrite !serialize_health.
Qed.

Lemma handle_stateless st1 st2 req1 req2 :
  routes (application st1) = routes (application st2) →
  method req1 = method req2 → path req1 = path req2 →
  (handle st1 req1).1 = (handle st2 req2).1.
Proof.
  intros Hr Hm Hp. pose proof (dispatch_stateless _ _ _ _ Hr Hm Hp) as Hd.
  unfold handle.
  destruct (dispatch st1 req1) as [r1 st1'|f1 k1],
           (dispatch st2 req2) as [r2 st2'|f2 k2]; cbn in Hd; try done.
  destruct Hd as [<- <-]. pose proof (call_stateless f1 k1 st1 st2) as Hc.
  by destruct (call f1 k1 st1), (call f1 k1 st2).
Qed.

(** X3: the service is stateless for every request, not only for GET
    /health.  Whatever was served before, and whatever query parameters,
    header fields and body a request carries, the status code, the media
    type and the body of its response are decided by its method and path
    alone.  (The header fields of a response are outside the model; of
    them the Location of a redirect does depend on the Host header and the
    query string.) *)
Theorem X3_responses_stateless (st1 st2 : Interp) (req1 req2 : Request) :
  Reachable st1 → Reachable st2 →
  method req1 = method req2 → path req1 = path req2 →
  status_code (handle st1 req1).1 = status_code (handle st2 req2).1
  ∧ media_type (handle st1 req1).1 = media_type (handle st2 req2).1
  ∧ body (handle st1 req1).1 = body (handle st2 req2).1.
Proof.
  intros H1 H2 Hm Hp.
  assert ((handle st1 req1).1 = (handle st2 req2).1) as ->; [|done].
  apply handle_stateless; [|done..].
  by rewrite (reachable_routed _ H1), (reachable_routed _ H2).
Qed.

Lemma X3_responses_stateless_witness :
  Reachable imported
  ∧ Reachable (serve imported [bare "GET" "/openapi.json"; bare "GET" "/health"]).2
  ∧ body (handle imported (bare "HEAD" "/openapi.json")).1
    = body (handle (serve imported [bare "GET" "/openapi.json";
                                    bare "GET" "/health"]).2
              {| method := "HEAD"; path := "/openapi.json";
                 query_params := [("pretty", "1")]; headers := [];
                 stream := "x" |}).1.
Proof.
  assert (H2 : Reachable (serve imported [bare "GET" "/openapi.json";
                                          bare "GET" "/health"]).2)
    by (apply reachable_serve, reach_imported).
  destruct (X3_responses_stateless imported _ (bare "HEAD" "/openapi.json")
              {| method := "HEAD"; path := "/openapi.json";
                 query_params := [("pretty", "1")]; headers := [];
                 stream := "x" |} reach_imported H2 eq_refl eq_refl)
    as (_ & _ & H).
  exact (conj reach_imported (conj H2 H)).
Defined.

(** Sequential service answers each request as if it were alone. *)
Lemma serve_responses reqs :
  ∀ st, Reachable st → (serve st reqs).1 = (λ req, (handle st req).1) <$> reqs.
Proof.
  induction reqs as [|req reqs IH]; intros st Hst; [done|].
  pose proof (reach_handle st req Hst) as Hst'.
  cbn [serve fmap list_fmap]. specialize (IH _ Hst').
  destruct (handle st req) as [r st'] eqn:Hh. cbn [fst snd] in *.
  destruct (serve st' reqs) as [rs st'']. cbn [fst] in *. rewrite IH.
  f_equal. apply list_fmap_ext. intros _ req' _.
  apply handle_stateless; [|done..].
  by rewrite (reachable_routed _ Hst), (reachable_routed _ Hst').
Qed.

(** ** Interleavings against sequential service *)

Lemma alone_accepted req : accepted req = true → alone req = health_response.
Proof. intros Ha. unfold alone. by rewrite handle_accepted. Qed.

Lemma task_seq_ok st t : task_seq st t → task_ok st t.
Proof.
  destruct t as [req|req f kw|req o|req r]; cbn; [done|by intros [? _]| |].
  - by intros [_ H] _.
  - intros -> Hh. unfold alone. by rewrite handle_health.
Qed.

Lemma task_seq_mono st st' t :
  objects st `prefix_of` objects st' → task_seq st t → task_seq st' t.
Proof.
  intros Hpre. destruct t as [req|req f kw|req o|req r]; cbn; try done.
  intros [Ha (l & -> & Hl)]. split; [done|].
  exists l. split; [done | by eapply prefix_lookup_Some].
Qed.

(** One phase of one task: the task stays in order, and the store grows by
    the dict of the task exactly in the phase that calls the handler. *)
Lemma advance_seq t st t' st' :
  routed st → task_seq st t → advance t st = Some (t', st') →
  task_seq st' t' ∧ (allocated t ≤ allocated t')%nat
  ∧ objects st' = objects st
                  ++ replicate (allocated t' - allocated t) (ODict health_items).
Proof.
  intros Hr Hok. destruct t as [req|req f kw|req o|req r]; cbn [advance]; [| | |done].
  - pose proof (dispatch_cases st req) as Hc.
    destruct (dispatch st req) as [r st1|f kw] eqn:Hd; intros [= <- <-].
    + destruct Hc as (Ho & _ & _).
      assert (accepted req = false) as Ha.
      { destruct (accepted req) eqn:Ha; [|done].
        by rewrite (dispatch_accepted _ _ Hr Ha) in Hd. }
      cbn [task_seq allocated]. rewrite Ha, Ho. cbn. rewrite app_nil_r.
      repeat split; [|lia].
      unfold alone. pose proof (handle_stateless st imported req req Hr eq_refl eq_refl) as Hs.
      unfold handle in Hs at 1. by rewrite Hd in Hs.
    + destruct Hc as (_ & -> & _). cbn. rewrite app_nil_r.
      repeat split; [|lia].
      apply accepted_spec. by eapply invoke_only_health.
  - destruct Hok as [-> Ha]. destruct f. cbn [call]. rewrite health_spec.
    intros [= <- <-]. cbn [task_seq allocated].
    repeat split; [done | | lia].
    eexists. split; [done | apply lookup_with_result].
  - destruct Hok as [Ha (l & -> & Hl)]. intros [= <- <-].
    rewrite (encode_health _ _ Hl). cbn [task_seq allocated].
    rewrite Ha, (alone_accepted _ Ha). cbn [Nat.sub replicate].
    rewrite app_nil_r. repeat split; lia.
Qed.

Lemma allocs_insert ts : ∀ i t t',
  ts !! i = Some t →
  allocs (<[i := t']> ts) + allocated t = allocs ts + allocated t'.
Proof.
  induction ts as [|t0 ts IH]; intros [|i] t t'; cbn; try done.
  - intros [= ->]. lia.
  - intros Hi. specialize (IH i t t' Hi).
    change (allocated t0 + allocs (<[i := t']> ts) + allocated t
            = allocated t0 + allocs ts + allocated t').
    lia.
Qed.

Lemma step_seq base Q Q' : pool_seq base Q → step Q Q' → pool_seq base Q'.
Proof.
  intros Hinv Hstep. destruct Hstep as [P i t t' st' Ht Ha].
  destruct Hinv as (Hr & Hts & Hobj). unfold pool_seq. cbn [shared tasks].
  assert (task_seq (shared P) t) as Hok.
  { eapply Forall_forall in Hts; [exact Hts | by eapply list_elem_of_lookup_2]. }
  destruct (advance_ok _ _ _ _ Hr (task_seq_ok _ _ Hok) Ha) as (Hr' & Hpre & _).
  destruct (advance_seq _ _ _ _ Hr Hok Ha) as (Hok' & Hle & Hobj').
  split; [done|]. split.
  - apply Forall_insert; [|done].
    eapply Forall_impl; [exact Hts|]. intros t0. by apply task_seq_mono.
  - pose proof (allocs_insert (tasks P) i t t' Ht) as Hn.
    rewrite Hobj', Hobj, <- app_assoc, <- replicate_add. do 2 f_equal. lia.
Qed.

Lemma nsteps_seq base k Q Q' : nsteps step k Q Q' → pool_seq base Q → pool_seq base Q'.
Proof.
  induction 1 as [|k Q Q1 Q' Hstep _ IH]; [done|].
  intros Hinv. apply IH. by eapply step_seq.
Qed.

Lemma accept_seq st reqs : Reachable st → pool_seq (objects st) (accept st reqs).
Proof.
  intros Hst. unfold pool_seq.
  assert (allocs (tasks (accept st reqs)) = 0) as Hz.
  { cbn [accept tasks]. induction reqs as [|req reqs IH]; [done | exact IH]. }
  rewrite Hz. cbn [accept shared tasks replicate].
  split; [by apply reachable_routed|].
  split; [apply Forall_fmap, Forall_true; done | by rewrite app_nil_r].
Qed.

(** Tasks that are all finished, read off from their requests. *)
Lemma finished_tasks st ts :
  Forall (task_seq st) ts → Forall (λ t, rank t = 0) ts →
  ts = (λ req, Finished req (alone req)) <$> (request_of <$> ts)
  ∧ allocs ts = invocations (request_of <$> ts).
Proof.
  unfold invocations. induction 1 as [|t ts Ht _ IH]; [done|].
  intros [Hrank Hranks]%Forall_cons. destruct (IH Hranks) as [IH1 IH2].
  destruct t as [?|? ? ?|? ?|req r]; try done. cbn in Ht. subst r.
  cbn [fmap list_fmap request_of List.filter]. rewrite <- IH1. split; [done|].
  change (allocs (Finished req (alone req) :: ts))
    with ((if accepted req then 1 else 0) + allocs ts).
  rewrite IH2. by destruct (accepted req).
Qed.

Lemma stuck_finished P :
  (∀ i, step_at i P = None) → Forall (λ t, rank t = 0) (tasks P).
Proof.
  intros Hstuck. apply Forall_lookup. intros i t Ht.
  destruct (decide (rank t = 0)) as [|Hnz]; [done|].
  destruct (step_at_enabled i t P Ht Hnz) as [P' HP']. by rewrite Hstuck in HP'.
Qed.

Lemma zip_with_Finished (f : Request → Response) reqs :
  zip_with Finished reqs (f <$> reqs) = (λ req, Finished req (f req)) <$> reqs.
Proof. induction reqs as [|req reqs IH]; [done|]. cbn. by rewrite IH. Qed.

(** X4: interleaving changes nothing that shows.  Let any requests be in
    flight together and their phases interleave in any order until no step
    is left: then every request has finished with the response it gets
    when the requests are served one after the other, and the store holds
    what it holds after serving them so. *)
Theorem X4_interleaving_serializable (st : Interp) (reqs : list Request)
    (k : nat) (P : pool) :
  Reachable st → nsteps step k (accept st reqs) P →
  (∀ i, step_at i P = None) →
  tasks P = zip_with Finished reqs (serve st reqs).1
  ∧ objects (shared P) = objects (serve st reqs).2.
Proof.
  intros Hst Hsteps Hstuck.
  destruct (accept_ok st reqs Hst) as (Hok0 & _ & Hq0).
  destruct (nsteps_ok _ _ _ Hsteps Hok0) as (_ & _ & Hq). rewrite Hq0 in Hq.
  destruct (nsteps_seq _ _ _ _ Hsteps (accept_seq st reqs Hst)) as (_ & Hts & Hobj).
  destruct (finished_tasks _ _ Hts (stuck_finished _ Hstuck)) as [Htasks Hn].
  rewrite Hq in Htasks, Hn. split.
  - rewrite (serve_responses reqs st Hst), zip_with_Finished, Htasks.
    apply list_fmap_ext. intros _ req _. f_equal.
    apply handle_stateless; [|done..]. by rewrite (reachable_routed _ Hst).
  - rewrite Hobj, Hn. by destruct (serve_store st reqs Hst) as [_ ->].
Qed.

Lemma X4_interleaving_serializable_witness :
  Reachable imported
  ∧ nsteps step 5 (accept imported mixed) mixed_served
  ∧ (∀ i, step_at i mixed_served = None)
  ∧ tasks mixed_served = zip_with Finished mixed (serve imported mixed).1
  ∧ objects (shared mixed_served) = objects (serve imported mixed).2.
Proof.
  assert (Hrun : nsteps step 5 (accept imported mixed) mixed_served).
  { apply (schedule_nsteps [1; 0; 2; 0; 0]). reflexivity. }
  assert (Hstuck : ∀ i, step_at i mixed_served = None).
  { intros [|[|[|i]]]; reflexivity. }
  destruct (X4_interleaving_serializable imported mixed 5 mixed_served
              reach_imported Hrun Hstuck) as [H1 H2].
  exact (conj reach_imported (conj Hrun (conj Hstuck (conj H1 H2)))).
Defined.

(** ** The application object *)




